(** * HAICOR: the trie-based concept extractor

    A shallow embedding of [src/haicor/process/extractor.py]
    ([TrieConceptExtractor.to_trie], its inner [build_trie], and
    [TrieConceptExtractor.extract]) together with the properties the
    specification states about them.

    Python values are modelled as follows.
    - A token is a [string] (UTF-8 bytes; byte-wise lexicographic order
      coincides with Python's code-point order on [str]).
    - A concept is a Python sequence of tokens.  Python distinguishes a
      [tuple] from a [list]: they never compare equal and [<] between them
      raises [TypeError].  The source depends on that distinction (the literal
      [[]] in [build_trie], the [match + [token]] lists that [extract]
      yields), so a sequence carries its kind.
    - The trie is the nested [dict] the source builds: a finite map from a
      token to a pair of the end-of-concept flag and the sub-trie.
    - A generator is modelled by the list of the values it yields.
    - The [TypeError] of [sorted] is modelled by [None]. *)

From Stdlib Require Import String OrdersEx.
From stdpp Require Import gmap strings list fin_maps sorting.

Open Scope string_scope.
Open Scope list_scope.
Open Scope nat_scope.

#[local] Set Warnings "-clear-no-such-hyp".

(** ** Python sequences *)

Inductive seqkind : Set := KTuple | KList.

#[global] Instance seqkind_eq_dec : EqDecision seqkind.
Proof. solve_decision. Defined.

Record pyseq : Set := PySeq { kind : seqkind; items : list string }.

#[global] Instance pyseq_eq_dec : EqDecision pyseq.
Proof. solve_decision. Defined.

Definition PyTuple (l : list string) : pyseq := PySeq KTuple l.
Definition PyList (l : list string) : pyseq := PySeq KList l.

(** [bool(i)]: a sequence is truthy when it is not empty. *)
Definition truthy (i : pyseq) : bool :=
  match items i with [] => false | _ :: _ => true end.

(** [x[0]].  It is only applied to truthy sequences, where it cannot raise;
    the default is never returned there. *)
Definition getitem0 (x : pyseq) : string := hd "" (items x).

(** [i[1:]]: slicing keeps the type of the sequence and never raises. *)
Definition slice1 (i : pyseq) : pyseq := PySeq (kind i) (tail (items i)).

(** [x in entries]: some entry compares equal to [x].  Sequences of the same
    kind are equal when their items are; a tuple never equals a list. *)
Definition py_in (x : pyseq) (entries : list pyseq) : bool :=
  bool_decide (x ∈ entries).

(** ** Ordering and [sorted] *)

Definition str_lt (a b : string) : bool :=
  match String_as_OT.compare a b with Lt => true | _ => false end.

(** Python's [<] on two sequences of one kind: the first differing position
    decides, a proper prefix is smaller. *)
Fixpoint lex_lt (a b : list string) : bool :=
  match a, b with
  | [], [] => false
  | [], _ :: _ => true
  | _ :: _, [] => false
  | x :: a', y :: b' => if decide (x = y) then lex_lt a' b' else str_lt x y
  end.

(** [a < b] on sequences; [None] is the [TypeError] Python raises between a
    tuple and a list. *)
Definition py_lt (a b : pyseq) : option bool :=
  if decide (kind a = kind b) then Some (lex_lt (items a) (items b)) else None.

(** [sorted]: a stable sort that only uses [<].  The result of Python's sort is
    modelled by a stable insertion sort; an element is put in front of the
    first element that is not smaller than it. *)
Fixpoint sorted_insert (x : pyseq) (l : list pyseq) : option (list pyseq) :=
  match l with
  | [] => Some [x]
  | y :: l' =>
      lt ← py_lt y x;
      if (lt : bool) then cons y <$> sorted_insert x l' else Some (x :: y :: l')
  end.

Fixpoint sorted (l : list pyseq) : option (list pyseq) :=
  match l with
  | [] => Some []
  | x :: l' => s ← sorted l'; sorted_insert x s
  end.

(** ** [itertools.groupby] and the dict comprehension *)

(** [groupby(l, key)]: the maximal runs of consecutive elements with equal
    keys, each with its key. *)
Fixpoint groupby {A K : Type} `{EqDecision K} (key : A → K) (l : list A)
  : list (K * list A) :=
  match l with
  | [] => []
  | x :: l' =>
      match groupby key l' with
      | (k, g) :: rest =>
          if decide (key x = k) then (k, x :: g) :: rest
          else (key x, [x]) :: (k, g) :: rest
      | [] => [(key x, [x])]
      end
  end.

(** [{k: f(g) for k, g in groups}]: the pairs are inserted from left to
    right, a later pair overwrites an earlier one with the same key. *)
Definition dict_comp {A V : Type} (f : list A → V) (groups : list (string * list A))
  : gmap string V :=
  fold_left (λ m kg, <[kg.1 := f kg.2]> m) groups ∅.

(** ** The trie *)

#[warnings="-register-all"]
Inductive trie : Type := Trie (children : gmap string (bool * trie)).

Definition children (t : trie) : gmap string (bool * trie) :=
  match t with Trie c => c end.

(** What [build_trie] returns: the flag of a node and its children. *)
Abbreviation node := (bool * trie)%type.

Definition max_len (entries : list pyseq) : nat :=
  foldr (λ e n, length (items e) `max` n) 0 entries.

(** [build_trie].  The recursion is on the entries with their first token
    removed, so its depth is bounded by the length of the longest entry:
    [build_trie] runs it with one more unit of fuel than that, and
    [build_trie_unfold] below shows that it then satisfies the equation of
    the source for every collection of entries.  Python's recursion limit is
    not modelled: on a concept long enough to exceed it the source raises
    [RecursionError] where this function returns. *)
Fixpoint build_trie_rec (fuel : nat) (entries : list pyseq) : node :=
  let match_ := py_in (PyList []) entries in
  let entries' := filter (λ i, truthy i = true) entries in
  match fuel with
  | 0 => (match_, Trie ∅)
  | S fuel' =>
      (match_,
       Trie (dict_comp (λ tails, build_trie_rec fuel' (slice1 <$> tails))
                       (groupby getitem0 entries')))
  end.

Definition build_trie (entries : list pyseq) : node :=
  build_trie_rec (S (max_len entries)) entries.

(** [to_trie]: [build_trie(sorted(dictionary))[1]]. *)
Definition to_trie (dictionary : list pyseq) : option trie :=
  s ← sorted dictionary; Some (build_trie s).2.

(** ** [extract] *)

(** An element of [matches]: [((start, match), pointer)]. *)
Abbreviation active := (nat * list string * trie)%type.
(** A yielded value: [(start, match + [token])]. *)
Abbreviation emitted := (nat * list string)%type.

(** The inner [for] loop over [matches] for one token: the values yielded and
    the list [updates], both in iteration order. *)
Fixpoint scan (token : string) (matches : list active)
  : list emitted * list active :=
  match matches with
  | [] => ([], [])
  | ((start, match_), pointer) :: rest =>
      let '(yields, updates) := scan token rest in
      match children pointer !! token with
      | None => (yields, updates)
      | Some (matched, pointer') =>
          ((if (matched : bool) then [(start, match_ ++ [token])] else [])
             ++ yields,
           ((start, match_ ++ [token]), pointer') :: updates)
      end
  end.

(** The outer loop from position [index] on: for every iteration, the values
    it yields and the list [matches] it leaves for the next one. *)
Fixpoint iterations (dictionary : trie) (index : nat) (matches : list active)
         (tokens : list string) : list (list emitted * list active) :=
  match tokens with
  | [] => []
  | token :: tokens' =>
      let r := scan token (matches ++ [((index, []), dictionary)]) in
      r :: iterations dictionary (S index) r.2 tokens'
  end.

Definition extract (dictionary : trie) (tokens : list string) : list emitted :=
  mjoin ((iterations dictionary 0 [] tokens).*1).

(** The list [matches] at the end of every iteration. *)
Definition active_sets (dictionary : trie) (tokens : list string)
  : list (list active) :=
  (iterations dictionary 0 [] tokens).*2.

(** [TrieConceptExtractor(dictionary).extract(tokens)], as a whole. *)
Definition run (dictionary : list pyseq) (tokens : list string)
  : option (list emitted) :=
  d ← to_trie dictionary; Some (extract d tokens).

(** * The vocabulary of the properties *)

(** ** Sorted collections of one kind *)

(** [a <= b], as [sorted] sees it: [b] is not smaller than [a]. *)
Definition py_le (a b : pyseq) : Prop := lex_lt (items b) (items a) = false.

(** All the sequences of a collection are of one kind. *)
Definition same_kind (l : list pyseq) : Prop :=
  ∀ a b, a ∈ l → b ∈ l → kind a = kind b.

(** Equal keys are adjacent: when the key of an element occurs again
    further on, the next element already has it. *)
Inductive runs {A : Type} (key : A → string) : list A → Prop :=
| runs_nil : runs key []
| runs_cons x l :
    runs key l →
    (∀ y, y ∈ l → key y = key x → key <$> head l = Some (key x)) →
    runs key (x :: l).

(** The entries that start with token [h], without it: what [build_trie]
    recurses on for the child [h]. *)
Definition strip (h : string) (entries : list pyseq) : list pyseq :=
  slice1 <$> filter (λ i, getitem0 i = h)
               (filter (λ i, truthy i = true) entries).

(** ** Paths in the trie *)

(** Following tokens from a node, each through the children of the node
    reached so far. *)
Fixpoint descend (n : node) (path : list string) : option node :=
  match path with
  | [] => Some n
  | t :: path' => n' ← children n.2 !! t; descend n' path'
  end.

(** The node a path leads to from the root of the trie [to_trie] returns.
    That root is a bare [dict] of children: it is not a node with a flag, so
    the empty path leads to no node. *)
Definition node_at (d : trie) (path : list string) : option node :=
  match path with
  | [] => None
  | t :: path' => n ← children d !! t; descend n path'
  end.

(** The entries that start with [path], without it. *)
Fixpoint derive (path : list string) (entries : list pyseq) : list pyseq :=
  match path with
  | [] => entries
  | t :: path' => derive path' (strip t entries)
  end.

(** ** The loop of [extract] in closed form *)

(** What one pass of the inner loop does with one element of [matches]:
    the element it appends to [updates], and the value it yields. *)
Definition advance (token : string) (a : active) : option active :=
  let '((start, m), pointer) := a in
  n ← (children pointer !! token : option node);
  Some ((start, m ++ [token]), n.2).

Definition emit (token : string) (a : active) : option emitted :=
  let '((start, m), pointer) := a in
  n ← (children pointer !! token : option node);
  if (n.1 : bool) then Some (start, m ++ [token]) else None.

(** The list [matches] once the tokens [seen] are consumed: one element for
    every start from which the tokens seen since lead to a node, in the order
    of the starts. *)
Definition matches_at (d : trie) (seen : list string) : list active :=
  omap (λ start, n ← node_at d (drop start seen);
                 Some ((start, drop start seen), n.2))
       (seq 0 (length seen)).

(** The values yielded while [token] is consumed after [seen]. *)
Definition yields_at (d : trie) (seen : list string) (token : string)
  : list emitted :=
  omap (λ start, n ← node_at d (drop start (seen ++ [token]));
                 if (n.1 : bool) then Some (start, drop start (seen ++ [token]))
                 else None)
       (seq 0 (S (length seen))).

(** The iterations of the loop, in closed form. *)
Fixpoint iterations_at (d : trie) (seen tokens : list string)
  : list (list emitted * list active) :=
  match tokens with
  | [] => []
  | token :: tokens' =>
      (yields_at d seen token, matches_at d (seen ++ [token]))
        :: iterations_at d (seen ++ [token]) tokens'
  end.

(** ** The order of the yielded values *)

(** The index of the token that completes a match. *)
Definition completion (e : emitted) : nat := e.1 + length e.2 - 1.

(** The order of the specification: by completion index, then by start. *)
Definition emitted_before (a b : emitted) : Prop :=
  completion a < completion b ∨ (completion a = completion b ∧ a.1 < b.1).

(** * Properties *)

(** ** The order on tokens and on sequences *)

Lemma str_lt_irrefl a : str_lt a a = false.
Proof.
  unfold str_lt. destruct (String_as_OT.compare a a) eqn:E; try done.
  exfalso. by eapply (irreflexivity String_as_OT.lt a).
Qed.

Lemma str_lt_trans a b c : str_lt a b = true → str_lt b c = true → str_lt a c = true.
Proof.
  unfold str_lt. intros Hab Hbc.
  assert (String_as_OT.lt a c) as ->; [|done].
  transitivity b; unfold String_as_OT.lt.
  - by destruct (String_as_OT.compare a b).
  - by destruct (String_as_OT.compare b c).
Qed.

Lemma str_lt_total a b : a ≠ b → str_lt a b = false → str_lt b a = true.
Proof.
  unfold str_lt. intros Hne.
  destruct (String_as_OT.compare_spec a b) as [?|?|Hlt]; try done.
  unfold String_as_OT.lt in Hlt. by rewrite Hlt.
Qed.

Lemma str_lt_asym a b : str_lt a b = true → str_lt b a = false.
Proof.
  intros Hab. destruct (str_lt b a) eqn:Hba; [|done].
  pose proof (str_lt_trans _ _ _ Hab Hba) as H. by rewrite str_lt_irrefl in H.
Qed.

Lemma lex_lt_cons x y a b :
  lex_lt (x :: a) (y :: b) = if decide (x = y) then lex_lt a b else str_lt x y.
Proof. done. Qed.

Lemma lex_lt_irrefl a : lex_lt a a = false.
Proof. induction a as [|x a IH]; simpl; [done|]. by case_decide. Qed.

Lemma lex_lt_trans a b c : lex_lt a b = true → lex_lt b c = true → lex_lt a c = true.
Proof.
  revert b c. induction a as [|x a IH]; intros [|y b] [|z c]; simpl; try done.
  repeat case_decide; subst; try done; eauto.
  - intros H1 H2. rewrite (str_lt_asym _ _ H1) in H2. done.
  - apply str_lt_trans.
Qed.

Lemma lex_lt_total a b : lex_lt a b = false → lex_lt b a = false → a = b.
Proof.
  revert b. induction a as [|x a IH]; intros [|y b]; simpl; try done.
  repeat case_decide; subst; try done.
  - intros ??. f_equal. by apply IH.
  - intros H1 H2. by rewrite (str_lt_total x y) in H2.
Qed.

Lemma lex_lt_asym a b : lex_lt a b = true → lex_lt b a = false.
Proof.
  intros Hab. destruct (lex_lt b a) eqn:Hba; [|done].
  pose proof (lex_lt_trans _ _ _ Hab Hba) as H. by rewrite lex_lt_irrefl in H.
Qed.

#[global] Instance py_le_trans : Transitive py_le.
Proof.
  intros a b c Hab Hbc. unfold py_le in *.
  destruct (lex_lt (items c) (items a)) eqn:Hca; [|done].
  destruct (lex_lt (items b) (items c)) eqn:Hbc'.
  - by rewrite (lex_lt_trans _ _ _ Hbc' Hca) in Hab.
  - rewrite (lex_lt_total _ _ Hbc Hbc') in Hca. congruence.
Qed.

Lemma py_le_cons k t a b :
  py_le (PySeq k (t :: a)) (PySeq k (t :: b)) ↔ py_le (PySeq k a) (PySeq k b).
Proof. unfold py_le. simpl. by case_decide. Qed.

(** ** [sorted] *)

Lemma sorted_insert_perm x l r : sorted_insert x l = Some r → r ≡ₚ x :: l.
Proof.
  revert r. induction l as [|y l IH]; intros r; simpl.
  - by intros [= <-].
  - unfold py_lt. case_decide; [|done]. simpl.
    destruct (lex_lt _ _).
    + destruct (sorted_insert x l) as [r'|]; [|done]. intros [= <-].
      rewrite (IH r' eq_refl). apply perm_swap.
    + by intros [= <-].
Qed.

Lemma sorted_insert_sorted x l r :
  sorted_insert x l = Some r → StronglySorted py_le l → StronglySorted py_le r.
Proof.
  revert r. induction l as [|y l IH]; intros r; simpl.
  - intros [= <-] _. repeat constructor.
  - unfold py_lt. case_decide; [|done]. simpl.
    destruct (lex_lt (items y) (items x)) eqn:Hlt.
    + destruct (sorted_insert x l) as [r'|] eqn:Hr'; [|done]. intros [= <-] Hs.
      apply StronglySorted_inv in Hs as [Hs Hy].
      constructor; [by apply IH|].
      rewrite (sorted_insert_perm _ _ _ Hr'). constructor; [|done].
      by apply lex_lt_asym.
    + intros [= <-] Hs. constructor; [done|].
      apply StronglySorted_inv in Hs as [Hs Hy].
      constructor; [done|].
      eapply Forall_impl; [exact Hy|]. intros z Hz. by transitivity y.
Qed.

Lemma sorted_insert_is_Some x l :
  same_kind (x :: l) → is_Some (sorted_insert x l).
Proof.
  induction l as [|y l IH]; intros Hk; simpl; [done|].
  unfold py_lt. rewrite decide_True; last (apply Hk; set_solver). simpl.
  destruct (lex_lt _ _); [|done].
  destruct IH as [r ->]; [|done].
  intros a b Ha Hb. apply Hk; set_solver.
Qed.

Lemma sorted_insert_same_kind x l r :
  sorted_insert x l = Some r → same_kind l → same_kind r.
Proof.
  intros Hr Hl. pose proof (sorted_insert_perm _ _ _ Hr) as Hp.
  destruct l as [|y l]; simpl in Hr.
  - injection Hr as <-. intros a b. set_solver.
  - unfold py_lt in Hr. case_decide as Hxy; [|done].
    intros a b. rewrite !Hp. intros Ha Hb.
    assert (∀ c, c ∈ x :: y :: l → kind c = kind y) as Hc.
    { intros c [->|Hc]%elem_of_cons; [done|]. apply Hl; set_solver. }
    by rewrite (Hc a), (Hc b).
Qed.

Lemma sorted_Some l s :
  sorted l = Some s → s ≡ₚ l ∧ StronglySorted py_le s ∧ same_kind s.
Proof.
  revert s. induction l as [|x l IH]; intros s; simpl.
  - intros [= <-]. split_and!; [done|constructor|]. intros a b. set_solver.
  - destruct (sorted l) as [s'|]; [|done]. simpl. intros Hs.
    destruct (IH s' eq_refl) as (Hp & Hss & Hk). split_and!.
    + by rewrite (sorted_insert_perm _ _ _ Hs), Hp.
    + by eapply sorted_insert_sorted.
    + by eapply sorted_insert_same_kind.
Qed.

Lemma sorted_is_Some l : same_kind l ↔ is_Some (sorted l).
Proof.
  split.
  - induction l as [|x l IH]; intros Hk; simpl; [done|].
    destruct IH as [s Hs].
    { intros a b Ha Hb. apply Hk; set_solver. }
    rewrite Hs. simpl. apply sorted_insert_is_Some.
    destruct (sorted_Some _ _ Hs) as (Hp & _).
    intros a b. rewrite Hp. apply Hk.
  - intros [s Hs]. destruct (sorted_Some _ _ Hs) as (Hp & _ & Hk).
    intros a b. rewrite <-Hp. apply Hk.
Qed.

(** ** Lists *)

Lemma filter_none {A} (P : A → Prop) `{∀ x, Decision (P x)} (l : list A) :
  (∀ x, x ∈ l → ¬ P x) → filter P l = [].
Proof.
  induction l as [|x l IH]; intros HP; [done|].
  rewrite filter_cons_False by (apply HP; left).
  apply IH. intros y Hy. apply HP. by right.
Qed.

Lemma StronglySorted_filter {A} (R : relation A) (P : A → Prop)
    `{∀ x, Decision (P x)} (l : list A) :
  StronglySorted R l → StronglySorted R (filter P l).
Proof.
  induction 1 as [|x l Hs IH Hx]; [constructor|].
  rewrite filter_cons. case_decide; [|done].
  constructor; [done|].
  apply Forall_forall. intros y [_ Hy]%list_elem_of_filter.
  by eapply Forall_forall in Hx.
Qed.

(** ** [groupby] and the dict comprehension *)

Section groupby.
Context {A : Type} (key : A → string).

Lemma groupby_nil_inv l : groupby key l = [] → l = [].
Proof.
  destruct l as [|x l]; [done|]. simpl.
  destruct (groupby key l) as [|[k g] rest]; [done|]. by case_decide.
Qed.

Lemma groupby_head l k g rest :
  groupby key l = (k, g) :: rest → key <$> head l = Some k.
Proof.
  destruct l as [|x l]; [done|]. simpl.
  destruct (groupby key l) as [|[k' g'] rest']; [by intros [= <- _ _]|].
  case_decide; intros [= <- _ _]; by f_equal.
Qed.

(** On such a list every key has one group, which holds all the elements
    with that key. *)
Lemma groupby_runs l :
  runs key l →
  NoDup (groupby key l).*1 ∧
  ∀ h g, (h, g) ∈ groupby key l ↔ g = filter (λ y, key y = h) l ∧ g ≠ [].
Proof.
  induction 1 as [|x l Hl [IHnd IH] Hx]; simpl.
  { split; [constructor|]. intros h g. rewrite filter_nil. set_solver. }
  destruct (groupby key l) as [|[k g0] rest] eqn:HG.
  { apply groupby_nil_inv in HG as ->. simpl. split.
    - repeat constructor. set_solver.
    - intros h g. rewrite list_elem_of_singleton. split.
      + intros [= -> ->]. by rewrite filter_cons_True.
      + rewrite filter_cons, filter_nil. case_decide; naive_solver. }
  pose proof (groupby_head _ _ _ _ HG) as Hhd.
  assert (g0 = filter (λ y, key y = k) l ∧ g0 ≠ []) as [Hg0 Hg0n].
  { apply IH. left. }
  simpl in IHnd. apply NoDup_cons in IHnd as [Hk Hnd].
  case_decide as Hxk.
  - simpl. split; [by constructor|]. intros h g. rewrite elem_of_cons. split.
    + intros [[= -> ->]|Hin].
      * by rewrite filter_cons_True, <-Hg0.
      * assert (h ≠ k) as Hne.
        { intros ->. apply Hk. apply list_elem_of_fmap. by exists (k, g). }
        rewrite filter_cons_False by congruence. apply IH. by right.
    + intros [-> Hne]. destruct (decide (h = k)) as [->|Hhk].
      * left. by rewrite filter_cons_True, <-Hg0.
      * right. rewrite filter_cons_False in * by congruence.
        assert ((h, filter (λ y, key y = h) l) ∈ (k, g0) :: rest) as Hin
          by by apply IH.
        apply elem_of_cons in Hin as [[= ]|]; done.
  - assert (∀ y, y ∈ l → key y ≠ key x) as Hfresh.
    { intros y Hy Hyx. rewrite (Hx y Hy Hyx) in Hhd. congruence. }
    assert (filter (λ y, key y = key x) l = []) as Hnil.
    { apply filter_none. auto. }
    simpl. split.
    + constructor; [|by constructor]. rewrite <-(fmap_cons fst (k, g0)).
      intros ([h g] & Hh & Hin)%list_elem_of_fmap. simpl in Hh. subst h.
      apply IH in Hin as [-> Hne]. by rewrite Hnil in Hne.
    + intros h g. rewrite elem_of_cons. split.
      * intros [[= -> ->]|Hin].
        -- by rewrite filter_cons_True, Hnil.
        -- apply IH in Hin as [-> Hne].
           rewrite filter_cons_False; [done|]. intros Heq.
           rewrite <-Heq, Hnil in Hne. done.
      * intros [-> Hne]. destruct (decide (key x = h)) as [<-|Hxh].
        -- left. by rewrite filter_cons_True, Hnil.
        -- right. rewrite filter_cons_False in * by done. by apply IH.
Qed.

Lemma groupby_elem l k g x : (k, g) ∈ groupby key l → x ∈ g → x ∈ l.
Proof.
  revert k g. induction l as [|y l IH]; intros k g; simpl; [set_solver|].
  destruct (groupby key l) as [|[k0 g0] rest].
  - intros [= -> ->]%list_elem_of_singleton ->%list_elem_of_singleton. left.
  - case_decide.
    + intros [[= -> ->]|Hin]%elem_of_cons.
      * intros [->|Hx]%elem_of_cons; [left|right]. apply (IH k0 g0); [left|done].
      * intros Hx. right. apply (IH k g); [by right|done].
    + intros [[= -> ->]|Hin]%elem_of_cons.
      * intros ->%list_elem_of_singleton. left.
      * intros Hx. right. by apply (IH k g).
Qed.
End groupby.

Section dict_comp.
Context {A V : Type}.

Lemma dict_comp_ext (f f' : list A → V) groups :
  (∀ k g, (k, g) ∈ groups → f g = f' g) →
  dict_comp f groups = dict_comp f' groups.
Proof.
  unfold dict_comp. generalize (∅ : gmap string V).
  induction groups as [|[k g] groups IH]; intros m Hf; simpl; [done|].
  rewrite (Hf k g) by left. apply IH. intros k' g' Hin. apply (Hf k'). by right.
Qed.

Lemma dict_comp_lookup (f : list A → V) groups h :
  NoDup groups.*1 →
  dict_comp f groups !! h = f <$> (list_to_map groups : gmap string (list A)) !! h.
Proof.
  unfold dict_comp.
  assert (∀ m : gmap string V,
    NoDup groups.*1 →
    fold_left (λ m kg, <[kg.1 := f kg.2]> m) groups m !! h =
    match (list_to_map groups : gmap string (list A)) !! h with
    | Some g => Some (f g)
    | None => m !! h
    end) as Hgen.
  { induction groups as [|[k g] groups IH]; intros m Hnd; simpl; [done|].
    apply NoDup_cons in Hnd as [Hk Hnd]. rewrite IH by done.
    destruct (decide (k = h)) as [->|Hne].
    - rewrite lookup_insert_eq.
      rewrite (not_elem_of_list_to_map_1 groups h Hk).
      by rewrite lookup_insert_eq.
    - by rewrite !lookup_insert_ne. }
  intros Hnd. rewrite (Hgen ∅ Hnd), lookup_empty.
  by destruct (list_to_map groups !! h).
Qed.
End dict_comp.

(** ** [build_trie] *)

Lemma max_len_le entries b :
  max_len entries ≤ b ↔ ∀ e, e ∈ entries → length (items e) ≤ b.
Proof.
  unfold max_len. induction entries as [|x l IH]; simpl.
  - split; [set_solver|lia].
  - rewrite Nat.max_lub_iff, IH. set_solver.
Qed.

Lemma max_len_elem entries e : e ∈ entries → length (items e) ≤ max_len entries.
Proof. intros He. by apply (max_len_le entries (max_len entries)). Qed.

Lemma max_len_slice1 entries tails :
  (∀ e, e ∈ tails → e ∈ entries ∧ truthy e = true) →
  tails = [] ∨ max_len (slice1 <$> tails) < max_len entries.
Proof.
  intros Hsub. destruct tails as [|e0 tails]; [by left|right].
  cut (max_len (slice1 <$> e0 :: tails) ≤ pred (max_len entries) ∧
       1 ≤ max_len entries); [lia|].
  split.
  - apply max_len_le. intros e' (e & -> & He)%list_elem_of_fmap.
    destruct (Hsub e He) as [Hin Ht]. apply max_len_elem in Hin.
    unfold truthy in Ht. simpl. destruct (items e); [done|]. simpl in *. lia.
  - destruct (Hsub e0) as [Hin Ht]; [left|]. apply max_len_elem in Hin.
    unfold truthy in Ht. destruct (items e0); [done|]. simpl in *. lia.
Qed.

(** Any fuel above the length of the longest entry gives the same trie. *)
Lemma build_trie_rec_fuel n m entries :
  max_len entries < n → max_len entries < m →
  build_trie_rec n entries = build_trie_rec m entries.
Proof.
  revert m entries. induction n as [|n IH]; intros [|m] entries Hn Hm; try lia.
  simpl. do 2 f_equal. apply dict_comp_ext. intros k g Hg.
  destruct (max_len_slice1 entries g) as [->|Hlt].
  - intros e He. pose proof (groupby_elem _ _ _ _ _ Hg He) as Hin.
    by apply list_elem_of_filter in Hin as [? ?].
  - destruct n, m; simpl; try done; lia.
  - apply IH; lia.
Qed.

(** The defining equation of [build_trie], as the source has it. *)
Lemma build_trie_unfold entries :
  build_trie entries =
  (py_in (PyList []) entries,
   Trie (dict_comp (λ tails, build_trie (slice1 <$> tails))
           (groupby getitem0 (filter (λ i, truthy i = true) entries)))).
Proof.
  unfold build_trie at 1. simpl. do 2 f_equal.
  apply dict_comp_ext. intros k g Hg.
  destruct (max_len_slice1 entries g) as [->|Hlt].
  - intros e He. pose proof (groupby_elem _ _ _ _ _ Hg He) as Hin.
    by apply list_elem_of_filter in Hin as [? ?].
  - unfold build_trie. simpl. by destruct (max_len entries).
  - apply build_trie_rec_fuel; lia.
Qed.

Lemma elem_of_strip h entries c :
  c ∈ strip h entries ↔ PySeq (kind c) (h :: items c) ∈ entries.
Proof.
  unfold strip. rewrite list_elem_of_fmap. split.
  - intros (e & -> & He). apply list_elem_of_filter in He as [Hh He].
    apply list_elem_of_filter in He as [Ht He].
    destruct e as [k [|t l]]; [done|]. simpl in *. by subst.
  - intros Hc. exists (PySeq (kind c) (h :: items c)). split.
    + by destruct c.
    + rewrite !list_elem_of_filter. done.
Qed.

Lemma strip_same_kind h entries : same_kind entries → same_kind (strip h entries).
Proof.
  intros Hk a b Ha%elem_of_strip Hb%elem_of_strip.
  apply (Hk _ _ Ha Hb).
Qed.

Lemma strip_sorted h entries :
  same_kind entries →
  StronglySorted py_le entries → StronglySorted py_le (strip h entries).
Proof.
  intros Hk Hs. unfold strip.
  assert (StronglySorted py_le (filter (λ i, truthy i = true) entries)) as Hs'
    by by apply StronglySorted_filter.
  assert (∀ e, e ∈ filter (λ i, truthy i = true) entries → truthy e = true) as Ht.
  { by intros e [? _]%list_elem_of_filter. }
  revert Hs' Ht. generalize (filter (λ i, truthy i = true) entries).
  intros l. induction 1 as [|x l Hs' IH Hx]; intros Ht; [constructor|].
  assert (∀ e, e ∈ l → truthy e = true) as Ht'.
  { intros e He. apply Ht. by right. }
  rewrite filter_cons. case_decide as Hh; [|by apply IH].
  rewrite fmap_cons. constructor; [by apply IH|].
  apply Forall_forall. intros c (e & -> & [He Hin]%list_elem_of_filter)%list_elem_of_fmap.
  eapply Forall_forall in Hx; [|exact Hin].
  assert (truthy x = true) as Htx by (apply Ht; left).
  assert (truthy e = true) as Hte by (apply Ht; by right).
  unfold py_le, truthy, getitem0 in *.
  destruct x as [kx [|tx lx]], e as [ke [|te le]]; simpl in *; try done.
  subst. by rewrite decide_True in Hx.
Qed.

Lemma strip_max_len h entries :
  strip h entries = [] ∨ max_len (strip h entries) < max_len entries.
Proof.
  unfold strip.
  destruct (max_len_slice1 entries
    (filter (λ i, getitem0 i = h) (filter (λ i, truthy i = true) entries)))
    as [->|Hlt]; [|by left|by right].
  intros e [_ [Ht He]%list_elem_of_filter]%list_elem_of_filter. done.
Qed.

(** In a sorted collection the entries with the same first token are
    adjacent. *)
Lemma sorted_runs entries :
  StronglySorted py_le entries →
  runs getitem0 (filter (λ i, truthy i = true) entries).
Proof.
  intros Hs.
  assert (StronglySorted py_le (filter (λ i, truthy i = true) entries)) as Hs'
    by by apply StronglySorted_filter.
  assert (∀ e, e ∈ filter (λ i, truthy i = true) entries → truthy e = true) as Ht.
  { by intros e [? _]%list_elem_of_filter. }
  revert Hs' Ht. generalize (filter (λ i, truthy i = true) entries). clear.
  intros l. induction 1 as [|x l Hs IH Hx]; intros Ht; constructor.
  { apply IH. intros e He. apply Ht. by right. }
  intros y Hy Hyx. destruct l as [|z l]; [set_solver|]. simpl. f_equal.
  assert (py_le x z) as Hxz by by inversion Hx.
  assert (py_le z y) as Hzy.
  { apply elem_of_cons in Hy as [->|Hy].
    - apply lex_lt_irrefl.
    - inversion Hs as [|?? _ Hz]; subst. by eapply Forall_forall in Hz. }
  assert (truthy x = true) as Htx by (apply Ht; left).
  assert (truthy z = true) as Htz by (apply Ht; right; left).
  assert (truthy y = true) as Hty by (apply Ht; by right).
  unfold py_le, truthy, getitem0 in *.
  destruct x as [kx [|tx lx]], y as [ky [|ty ly]], z as [kz [|tz lz]];
    cbn [items hd] in *; try done.
  subst. destruct (decide (tz = tx)) as [|Hne]; [done|].
  rewrite lex_lt_cons, decide_False in Hxz by done.
  rewrite lex_lt_cons, decide_False in Hzy by done.
  by rewrite (str_lt_total tz tx) in Hzy.
Qed.

(** The child for token [h] of the node built from sorted entries is the node
    built from the entries that start with [h]; there is none when no entry
    starts with [h]. *)
Lemma build_trie_child entries h :
  StronglySorted py_le entries →
  children (build_trie entries).2 !! h =
  match strip h entries with
  | [] => None
  | _ :: _ => Some (build_trie (strip h entries))
  end.
Proof.
  intros Hs. rewrite build_trie_unfold. simpl.
  destruct (groupby_runs getitem0 _ (sorted_runs _ Hs)) as [Hnd Hg].
  rewrite dict_comp_lookup by done.
  destruct (list_to_map _ !! h) as [g|] eqn:Hl; simpl.
  - apply elem_of_list_to_map in Hl; [|done].
    apply Hg in Hl as [-> Hne]. unfold strip.
    by destruct (filter (λ y, getitem0 y = h) _).
  - destruct (strip h entries) as [|c l] eqn:Hstrip; [done|].
    apply not_elem_of_list_to_map in Hl. exfalso. apply Hl.
    apply list_elem_of_fmap.
    exists (h, filter (λ y, getitem0 y = h) (filter (λ i, truthy i = true) entries)).
    split; [done|]. apply Hg. split; [done|].
    intros Hnil. unfold strip in Hstrip. by rewrite Hnil in Hstrip.
Qed.

Lemma build_trie_flag entries :
  (build_trie entries).1 = py_in (PyList []) entries.
Proof. by rewrite build_trie_unfold. Qed.

(** ** Paths in the trie *)

Lemma descend_cons n t path :
  descend n (t :: path) = n' ← children n.2 !! t; descend n' path.
Proof. done. Qed.

Lemma descend_snoc n path t :
  descend n (path ++ [t]) = n' ← descend n path; children n'.2 !! t.
Proof.
  revert n. induction path as [|t' path IH]; intros n; simpl.
  - by destruct (children n.2 !! t).
  - destruct (children n.2 !! t'); simpl; [apply IH|done].
Qed.

Lemma node_at_snoc d path t :
  node_at d (path ++ [t]) =
  match path with
  | [] => children d !! t
  | _ :: _ => n ← node_at d path; children n.2 !! t
  end.
Proof.
  destruct path as [|t' path]; simpl.
  - by destruct (children d !! t).
  - destruct (children d !! t'); simpl; [apply descend_snoc|done].
Qed.

Lemma node_at_descend n path :
  path ≠ [] → node_at n.2 path = descend n path.
Proof. by destruct path. Qed.

Lemma derive_nil path : derive path [] = [].
Proof. induction path as [|t path IH]; [done|exact IH]. Qed.

Lemma elem_of_derive path entries c :
  c ∈ derive path entries ↔ PySeq (kind c) (path ++ items c) ∈ entries.
Proof.
  revert entries c. induction path as [|t path IH]; intros entries c; simpl.
  - by destruct c.
  - by rewrite IH, elem_of_strip.
Qed.

Lemma derive_same_kind path entries :
  same_kind entries → same_kind (derive path entries).
Proof.
  revert entries. induction path; simpl; auto using strip_same_kind.
Qed.

Lemma derive_sorted path entries :
  same_kind entries →
  StronglySorted py_le entries → StronglySorted py_le (derive path entries).
Proof.
  revert entries. induction path; simpl; auto using strip_same_kind, strip_sorted.
Qed.

(** The node a non-empty path leads to in the trie built from sorted entries
    is the node built from the entries that start with the path. *)
Lemma descend_build_trie entries t path :
  same_kind entries → StronglySorted py_le entries →
  descend (build_trie entries) (t :: path) =
  match derive (t :: path) entries with
  | [] => None
  | _ :: _ => Some (build_trie (derive (t :: path) entries))
  end.
Proof.
  revert entries t. induction path as [|t' path IH]; intros entries t Hk Hs.
  - cbn [descend derive]. rewrite build_trie_child by done.
    by destruct (strip t entries).
  - rewrite descend_cons, build_trie_child by done. cbn [derive].
    destruct (strip t entries) as [|c l] eqn:Hstrip.
    + simpl. by rewrite derive_nil.
    + rewrite <-Hstrip. cbn [mbind option_bind].
      rewrite IH; [done|by apply strip_same_kind|by apply strip_sorted].
Qed.

Lemma node_at_build_trie entries path :
  same_kind entries → StronglySorted py_le entries →
  node_at (build_trie entries).2 path =
  match path, derive path entries with
  | _ :: _, _ :: _ => Some (build_trie (derive path entries))
  | _, _ => None
  end.
Proof.
  intros Hk Hs. destruct path as [|t path]; [done|].
  rewrite node_at_descend by done. by apply descend_build_trie.
Qed.

(** The flag of the node a path leads to says whether the path, as a [list],
    is an entry. *)
Lemma node_at_flag entries path n :
  same_kind entries → StronglySorted py_le entries →
  node_at (build_trie entries).2 path = Some n →
  n.1 = bool_decide (PyList path ∈ entries).
Proof.
  intros Hk Hs. rewrite node_at_build_trie by done.
  destruct path as [|t path]; [done|].
  destruct (derive _ _) eqn:Hd; [done|]. intros [= <-]. rewrite <-Hd.
  rewrite build_trie_flag. unfold py_in. apply bool_decide_ext.
  rewrite elem_of_derive. simpl. by rewrite app_nil_r.
Qed.

(** A path leads to a node exactly when it is not empty and some entry starts
    with it. *)
Lemma node_at_is_Some entries path :
  same_kind entries → StronglySorted py_le entries →
  is_Some (node_at (build_trie entries).2 path) ↔
  path ≠ [] ∧ ∃ k rest, PySeq k (path ++ rest) ∈ entries.
Proof.
  intros Hk Hs. rewrite node_at_build_trie by done.
  destruct path as [|t path].
  { split; [by intros [? ?]|by intros [? _]]. }
  destruct (derive _ _) as [|c l] eqn:Hd.
  - split; [by intros [? ?]|]. intros [_ (k & rest & Hin)].
    assert (PySeq k rest ∈ derive (t :: path) entries) as Hin'
      by by apply elem_of_derive.
    rewrite Hd in Hin'. by apply elem_of_nil in Hin'.
  - split; [|by eexists]. intros _. split; [done|].
    exists (kind c), (items c). apply elem_of_derive. rewrite Hd. left.
Qed.

(** ** The extraction loop *)

Lemma omap_omap {A B C} (f : A → option B) (g : B → option C) (l : list A) :
  omap g (omap f l) = omap (λ x, f x ≫= g) l.
Proof.
  induction l as [|x l IH]; [done|]. csimpl.
  destruct (f x) as [y|]; csimpl; [|done]. rewrite IH. by destruct (g y).
Qed.

Lemma omap_ext_elem {A B} (f g : A → option B) (l : list A) :
  (∀ x, x ∈ l → f x = g x) → omap f l = omap g l.
Proof.
  intros Hfg. apply list_omap_ext, Forall2_same_length_lookup.
  split; [done|]. intros i x y Hx Hy. simplify_eq. apply Hfg.
  by eapply list_elem_of_lookup_2.
Qed.

Lemma scan_omap token matches :
  scan token matches = (omap (emit token) matches, omap (advance token) matches).
Proof.
  induction matches as [|[[start m] pointer] rest IH]; [done|].
  cbn [scan]. rewrite IH. csimpl. unfold emit, advance. simpl.
  destruct (children pointer !! token) as [[[] pointer']|]; done.
Qed.

Lemma scan_matches_at d seen token :
  scan token (matches_at d seen ++ [((length seen, []), d)]) =
  (yields_at d seen token, matches_at d (seen ++ [token])).
Proof.
  rewrite scan_omap. unfold yields_at, matches_at.
  rewrite length_app, Nat.add_1_r, seq_S, !omap_app, !omap_omap. simpl.
  assert (∀ start, start ∈ seq 0 (length seen) →
    drop start (seen ++ [token]) = drop start seen ++ [token] ∧
    drop start seen ≠ []) as Hdrop.
  { intros start [_ Hlt]%elem_of_seq. split.
    - rewrite drop_app_le by lia. done.
    - intros Hnil%(f_equal length). rewrite length_drop in Hnil. simpl in *. lia. }
  rewrite drop_app_length. f_equal; f_equal.
  - apply omap_ext_elem. intros start Hs. destruct (Hdrop start Hs) as [-> Hne].
    rewrite node_at_snoc. destruct (drop start seen) as [|t l] eqn:Hd; [done|].
    destruct (node_at d (t :: l)) as [n|]; [|done]. unfold emit. simpl.
    by destruct (children n.2 !! token).
  - unfold emit. simpl. by destruct (children d !! token).
  - apply omap_ext_elem. intros start Hs. destruct (Hdrop start Hs) as [-> Hne].
    rewrite node_at_snoc. destruct (drop start seen) as [|t l] eqn:Hd; [done|].
    destruct (node_at d (t :: l)) as [n|]; [|done]. unfold advance. simpl.
    by destruct (children n.2 !! token).
  - unfold advance. simpl. by destruct (children d !! token).
Qed.

Lemma iterations_iterations_at d seen tokens :
  iterations d (length seen) (matches_at d seen) tokens =
  iterations_at d seen tokens.
Proof.
  revert seen. induction tokens as [|token tokens IH]; intros seen; [done|].
  cbn [iterations iterations_at]. rewrite scan_matches_at. f_equal.
  cbn [snd]. rewrite <-IH. by rewrite length_app, Nat.add_1_r.
Qed.

Lemma extract_iterations_at d tokens :
  extract d tokens = mjoin (iterations_at d [] tokens).*1.
Proof. unfold extract. by rewrite <-iterations_iterations_at. Qed.

Lemma active_sets_iterations_at d tokens :
  active_sets d tokens = (iterations_at d [] tokens).*2.
Proof. unfold active_sets. by rewrite <-iterations_iterations_at. Qed.

Lemma elem_of_iterations_at d seen tokens r :
  r ∈ iterations_at d seen tokens ↔
  ∃ pre token post,
    tokens = pre ++ token :: post ∧
    r = (yields_at d (seen ++ pre) token, matches_at d (seen ++ pre ++ [token])).
Proof.
  revert seen. induction tokens as [|t tokens IH]; intros seen; simpl.
  { split; [by intros ?%elem_of_nil|]. by intros ([|??] & ? & ? & ? & _). }
  rewrite elem_of_cons, IH. split.
  - intros [->|(pre & token & post & -> & ->)].
    + exists [], t, tokens. by rewrite app_nil_r.
    + exists (t :: pre), token, post. by rewrite <-!app_assoc.
  - intros ([|t' pre] & token & post & Heq & ->); simplify_eq/=.
    + left. by rewrite app_nil_r.
    + right. exists pre, token, post. by rewrite <-!app_assoc.
Qed.

(** Every yielded pair, with the place in the stream where it is yielded. *)
Lemma elem_of_extract d tokens start toks :
  (start, toks) ∈ extract d tokens ↔
  ∃ pre token post n,
    tokens = pre ++ token :: post ∧
    start ≤ length pre ∧
    toks = drop start (pre ++ [token]) ∧
    node_at d toks = Some n ∧ n.1 = true.
Proof.
  rewrite extract_iterations_at. split.
  - intros (ys & Hin & Hys)%list_elem_of_join.
    apply list_elem_of_fmap in Hys as (r & -> & Hr).
    apply elem_of_iterations_at in Hr as (pre & token & post & -> & ->).
    simpl in Hin. unfold yields_at in Hin.
    apply list_elem_of_omap in Hin as (s & [_ Hs]%elem_of_seq & Hy).
    destruct (node_at d _) as [n|] eqn:Hn; [|done]. simpl in Hy.
    destruct n.1 eqn:Hfl; [|done]. injection Hy as <- <-.
    exists pre, token, post, n. split_and!; [done|lia|done..].
  - intros (pre & token & post & n & -> & Hle & -> & Hn & Hfl).
    apply list_elem_of_join. exists (yields_at d pre token). split.
    + unfold yields_at. apply list_elem_of_omap. exists start. split.
      * apply elem_of_seq. lia.
      * rewrite Hn. simpl. by rewrite Hfl.
    + apply list_elem_of_fmap.
      exists (yields_at d pre token, matches_at d (pre ++ [token])).
      split; [done|]. apply elem_of_iterations_at. by exists pre, token, post.
Qed.

(** ** The trie of a dictionary *)

Lemma to_trie_Some dictionary d :
  to_trie dictionary = Some d →
  ∃ entries,
    sorted dictionary = Some entries ∧ d = (build_trie entries).2 ∧
    (∀ c, c ∈ entries ↔ c ∈ dictionary) ∧
    StronglySorted py_le entries ∧ same_kind entries.
Proof.
  unfold to_trie. destruct (sorted dictionary) as [entries|] eqn:Hs; [|done].
  intros [= <-]. exists entries.
  destruct (sorted_Some _ _ Hs) as (Hp & Hss & Hk).
  split_and!; try done. intros c. by rewrite Hp.
Qed.

Lemma max_len_ext l1 l2 : (∀ c, c ∈ l1 ↔ c ∈ l2) → max_len l1 = max_len l2.
Proof.
  intros Heq. apply Nat.le_antisymm; apply max_len_le; intros e He;
    apply max_len_elem; by apply Heq.
Qed.

(** ** The loop on small inputs *)

Example extract_adjacent_overlap :
  run [PyList ["a"; "b"]; PyList ["b"; "c"]] ["a"; "b"; "c"]
  = Some [(0, ["a"; "b"]); (1, ["b"; "c"])].
Proof. reflexivity. Qed.

Example extract_empty_dictionary : run [] ["x"; "y"] = Some [].
Proof. reflexivity. Qed.

Example extract_repeated_token :
  run [PyList ["x"]] ["y"; "x"; "x"] = Some [(1, ["x"]); (2, ["x"])].
Proof. reflexivity. Qed.

(** [sorted] raises on a collection that mixes tuples and lists. *)
Example to_trie_mixed_kinds : to_trie [PyList ["a"]; PyTuple ["b"]] = None.
Proof. reflexivity. Qed.

(** Without [sorted] the entries that share a first token need not be
    adjacent, and a later group would overwrite an earlier one. *)
Example build_trie_unsorted :
  (build_trie [PyList ["a"; "b"]; PyList ["c"]; PyList ["a"; "d"]]).2
  = Trie {[ "a" := (false, Trie {[ "d" := (true, Trie ∅) ]});
            "c" := (true, Trie ∅) ]}.
Proof. vm_compute. reflexivity. Qed.

(** * The properties of the specification *)

(** ** Soundness *)

Lemma extract_elem_entry dictionary d S start tokens :
  to_trie dictionary = Some d →
  (start, tokens) ∈ extract d S → PyList tokens ∈ dictionary.
Proof.
  intros (entries & _ & -> & Hin & Hs & Hk)%to_trie_Some.
  intros (pre & token & post & n & -> & Hle & -> & Hn & Hfl)%elem_of_extract.
  apply Hin. rewrite (node_at_flag _ _ _ Hk Hs Hn) in Hfl.
  by apply bool_decide_eq_true in Hfl.
Qed.

Lemma extract_elem_slice d S start tokens :
  (start, tokens) ∈ extract d S →
  take (length tokens) (drop start S) = tokens.
Proof.
  intros (pre & token & post & n & -> & Hle & -> & Hn & Hfl)%elem_of_extract.
  replace (pre ++ token :: post) with ((pre ++ [token]) ++ post)
    by by rewrite <-app_assoc.
  rewrite (drop_app_le (pre ++ [token])) by (rewrite length_app; simpl; lia).
  by rewrite take_app_length.
Qed.

(** C2. Every pair [(start, tokens)] that [extract] yields is an occurrence
    of a concept of the dictionary: [tokens], the list yielded, is an element
    of the dictionary, and [S[start : start+len(tokens)] == tokens]. *)
Theorem extract_sound dictionary d S start tokens :
  to_trie dictionary = Some d →
  (start, tokens) ∈ extract d S →
  PyList tokens ∈ dictionary ∧ take (length tokens) (drop start S) = tokens.
Proof.
  intros Hd Hin. split.
  - by eapply extract_elem_entry.
  - by eapply extract_elem_slice.
Qed.

Lemma extract_sound_witness :
  PyList ["b"; "c"] ∈ [PyList ["b"; "c"]; PyList ["a"; "b"]] ∧
  take (length ["b"; "c"]) (drop 1 ["a"; "b"; "c"]) = ["b"; "c"].
Proof.
  assert (∃ d, to_trie [PyList ["b"; "c"]; PyList ["a"; "b"]] = Some d ∧
               (1, ["b"; "c"]) ∈ extract d ["a"; "b"; "c"]) as (d & Hd & Hin).
  { eexists. split; [reflexivity|]. vm_compute. right. left. }
  exact (extract_sound _ d _ _ _ Hd Hin).
Defined.

(** ** Ordering *)

Lemma StronglySorted_seq j n : StronglySorted lt (seq j n).
Proof.
  revert j. induction n as [|n IH]; intros j; simpl; constructor; [done|].
  apply Forall_forall. intros k [? _]%elem_of_seq. lia.
Qed.

Lemma StronglySorted_omap {A B} (R : relation A) (R' : relation B)
    (f : A → option B) (l : list A) :
  (∀ x y a b, R x y → f x = Some a → f y = Some b → R' a b) →
  StronglySorted R l → StronglySorted R' (omap f l).
Proof.
  intros Hf. induction 1 as [|x l Hs IH Hx]; csimpl; [constructor|].
  destruct (f x) as [a|] eqn:Hfx; [|done]. constructor; [done|].
  apply Forall_forall. intros b (y & Hy & Hfy)%list_elem_of_omap.
  eapply Forall_forall in Hx; [|exact Hy]. eauto.
Qed.

Lemma yields_at_inv d seen token e :
  e ∈ yields_at d seen token →
  e.1 ≤ length seen ∧ e.2 = drop e.1 (seen ++ [token]).
Proof.
  unfold yields_at. intros (s & [_ Hs]%elem_of_seq & He)%list_elem_of_omap.
  destruct (node_at d _) as [n|]; [|done]. simpl in He.
  destruct n.1; [|done]. injection He as <-. simpl. split; [lia|done].
Qed.

Lemma yields_at_completion d seen token e :
  e ∈ yields_at d seen token → completion e = length seen.
Proof.
  intros [Hle He]%yields_at_inv. unfold completion.
  rewrite He, length_drop, length_app. simpl. lia.
Qed.

Lemma yields_at_sorted d seen token :
  StronglySorted (λ a b : emitted, a.1 < b.1) (yields_at d seen token).
Proof.
  unfold yields_at. eapply StronglySorted_omap; [|apply StronglySorted_seq].
  intros x y a b Hlt Ha Hb.
  destruct (node_at d (drop x _)) as [n|]; [|done].
  destruct (node_at d (drop y _)) as [n'|]; [|done]. simpl in *.
  destruct n.1, n'.1; simplify_eq. done.
Qed.

Lemma iterations_at_completion d seen tokens e :
  e ∈ mjoin (iterations_at d seen tokens).*1 → length seen ≤ completion e.
Proof.
  intros (ys & He & (r & -> & Hr)%list_elem_of_fmap)%list_elem_of_join.
  apply elem_of_iterations_at in Hr as (pre & token & post & -> & ->).
  apply yields_at_completion in He. rewrite He, length_app. lia.
Qed.

Lemma iterations_at_ordered d seen tokens :
  StronglySorted emitted_before (mjoin (iterations_at d seen tokens).*1).
Proof.
  revert seen. induction tokens as [|token tokens IH]; intros seen; simpl.
  { constructor. }
  apply StronglySorted_app. split_and!.
  - intros a b Ha%yields_at_completion Hb%iterations_at_completion.
    left. rewrite length_app in Hb. simpl in Hb. lia.
  - pose proof (yields_at_sorted d seen token) as Hs.
    assert (Forall (λ e, completion e = length seen) (yields_at d seen token))
      as Hc.
    { apply Forall_forall. intros e. apply yields_at_completion. }
    induction Hs as [|x l Hs IHs Hx]; [constructor|].
    apply Forall_cons in Hc as [Hcx Hc]. constructor; [by apply IHs|].
    apply Forall_forall. intros y Hy. right. split.
    + eapply Forall_forall in Hc; [|exact Hy]. congruence.
    + by eapply Forall_forall in Hx.
  - apply IH.
Qed.

(** C3. The matches [extract] yields are in non-decreasing order of the
    index of the token that completes them, and matches completed by the same
    token are in ascending order of their start: of any two yielded values, the
    earlier one is completed earlier, or by the same token and starts
    earlier. *)
Theorem extract_ordered dictionary d S :
  to_trie dictionary = Some d →
  StronglySorted emitted_before (extract d S).
Proof. intros _. rewrite extract_iterations_at. apply iterations_at_ordered. Qed.

Lemma extract_ordered_witness :
  StronglySorted emitted_before
    [(0, ["a"; "b"]); (1, ["b"]); (2, ["c"]); (0, ["a"; "b"; "c"; "d"])].
Proof.
  assert (∃ d,
    to_trie [PyList ["a"; "b"]; PyList ["b"]; PyList ["c"];
             PyList ["a"; "b"; "c"; "d"]] = Some d ∧
    extract d ["a"; "b"; "c"; "d"] =
    [(0, ["a"; "b"]); (1, ["b"]); (2, ["c"]); (0, ["a"; "b"; "c"; "d"])])
    as (d & Hd & <-).
  { eexists. split; reflexivity. }
  exact (extract_ordered _ d _ Hd).
Defined.

(** ** No empty match *)

(** C6. [extract] never yields an empty match, whatever the dictionary,
    the empty concept included: the tokens of a yielded pair end with the
    token consumed when it is yielded, so there is at least one. *)
Theorem extract_nonempty dictionary d S start tokens :
  to_trie dictionary = Some d →
  (start, tokens) ∈ extract d S →
  1 ≤ length tokens ∧
  ∃ i token, S !! i = Some token ∧ i = start + length tokens - 1 ∧
             last tokens = Some token.
Proof.
  intros _ (pre & token & post & n & -> & Hle & -> & _)%elem_of_extract.
  rewrite length_drop, length_app. simpl. split; [lia|].
  exists (length pre), token. split_and!.
  - by rewrite list_lookup_middle.
  - lia.
  - rewrite drop_app_le by done. apply last_snoc.
Qed.

Lemma extract_nonempty_witness :
  1 ≤ length ["a"] ∧
  ∃ i token, ["b"; "a"] !! i = Some token ∧ i = 1 + length ["a"] - 1 ∧
             last ["a"] = Some token.
Proof.
  assert (∃ d, to_trie [PyList []; PyList ["a"]] = Some d ∧
               (1, ["a"]) ∈ extract d ["b"; "a"]) as (d & Hd & Hin).
  { eexists. split; [reflexivity|]. vm_compute. left. }
  exact (extract_nonempty _ d _ _ _ Hd Hin).
Defined.

(** ** The bound on the active matches *)

Lemma omap_none {A B} (f : A → option B) (l : list A) :
  (∀ x, x ∈ l → f x = None) → omap f l = [].
Proof.
  induction l as [|x l IH]; intros Hf; [done|]. csimpl.
  rewrite (Hf x) by left. apply IH. intros y Hy. apply Hf. by right.
Qed.

Lemma length_omap_le {A B} (f : A → option B) (l : list A) :
  length (omap f l) ≤ length l.
Proof.
  induction l as [|x l IH]; [done|]. csimpl. destruct (f x); simpl; lia.
Qed.

(** Of the starts [0 .. n-1], only the last [L] can be kept. *)
Lemma length_omap_seq {B} (f : nat → option B) (n L : nat) :
  (∀ s, s < n → is_Some (f s) → n - s ≤ L) →
  length (omap f (seq 0 n)) ≤ L.
Proof.
  intros Hf. replace n with ((n - L) + (n `min` L)) at 1 by lia.
  rewrite seq_app, omap_app, length_app, omap_none.
  - simpl. etrans; [apply length_omap_le|]. rewrite length_seq. lia.
  - intros s [_ Hs]%elem_of_seq. destruct (f s) eqn:Hfs; [|done].
    assert (n - s ≤ L); [|lia]. apply Hf; [lia|]. by rewrite Hfs.
Qed.

Lemma matches_at_inv d seen a :
  a ∈ matches_at d seen →
  a.1.1 < length seen ∧ a.1.2 = drop a.1.1 seen ∧
  ∃ n, node_at d a.1.2 = Some n ∧ a.2 = n.2.
Proof.
  unfold matches_at. intros (s & [_ Hs]%elem_of_seq & Ha)%list_elem_of_omap.
  destruct (node_at d _) as [n|] eqn:Hn; [|done]. injection Ha as <-. simpl.
  split_and!; [lia|done|]. by exists n.
Qed.

Lemma matches_at_starts d seen :
  StronglySorted (λ a b : active, a.1.1 < b.1.1) (matches_at d seen).
Proof.
  unfold matches_at. eapply StronglySorted_omap; [|apply StronglySorted_seq].
  intros x y a b Hlt Ha Hb.
  destruct (node_at d (drop x _)) as [n|]; [|done].
  destruct (node_at d (drop y _)) as [n'|]; [|done]. by simplify_eq/=.
Qed.

Lemma node_at_depth entries path :
  same_kind entries → StronglySorted py_le entries →
  is_Some (node_at (build_trie entries).2 path) →
  1 ≤ length path ≤ max_len entries.
Proof.
  intros Hk Hs [Hne (k & rest & Hin)]%node_at_is_Some; [|done..].
  apply max_len_elem in Hin. simpl in Hin. rewrite length_app in Hin.
  destruct path; [done|]. simpl in *. lia.
Qed.

(** C8. At the end of every iteration of the loop of [extract], the list
    [matches] carried over to the next token has at most [L] elements, where
    [L] is the length of the longest concept of the dictionary: its elements
    have different starts, and each has matched between 1 and [L] tokens. *)
Theorem active_matches_bounded dictionary d S matches :
  to_trie dictionary = Some d →
  matches ∈ active_sets d S →
  length matches ≤ max_len dictionary ∧
  NoDup (matches.*1.*1) ∧
  ∀ start m pointer, ((start, m), pointer) ∈ matches →
    1 ≤ length m ≤ max_len dictionary.
Proof.
  intros (entries & _ & -> & Hin & Hs & Hk)%to_trie_Some.
  rewrite (max_len_ext dictionary entries) by (intros c; by rewrite Hin).
  rewrite active_sets_iterations_at.
  intros (r & -> & Hr)%list_elem_of_fmap.
  apply elem_of_iterations_at in Hr as (pre & token & post & -> & ->).
  cbn [snd app]. set (seen := pre ++ [token]). split_and!.
  - unfold matches_at. apply length_omap_seq. intros s Hlt Hsome.
    destruct (node_at _ (drop s seen)) as [n|] eqn:Hn; [|by destruct Hsome].
    destruct (node_at_depth entries (drop s seen)) as [_ Hle]; [done..| |].
    { by rewrite Hn. }
    by rewrite length_drop in Hle.
  - pose proof (matches_at_starts (build_trie entries).2 seen) as Hst.
    induction Hst as [|a l Hst IH Ha]; csimpl; constructor; [|done].
    intros (b & Hab & Hb)%list_elem_of_fmap.
    apply list_elem_of_fmap in Hb as (c & -> & Hc).
    eapply Forall_forall in Ha; [|exact Hc]. lia.
  - intros start m pointer (_ & _ & n & Hn & _)%matches_at_inv.
    cbn [fst snd] in Hn. apply node_at_depth; [done..|]. by rewrite Hn.
Qed.

Lemma active_matches_bounded_witness :
  2 ≤ max_len [PyList ["a"; "b"]; PyList ["b"; "c"]] ∧
  NoDup [0; 1] ∧
  ∀ start m pointer,
    ((start, m), pointer) ∈
      [((0, ["a"; "b"]), Trie ∅);
       ((1, ["b"]), Trie {[ "c" := (true, Trie ∅) ]})] →
    1 ≤ length m ≤ max_len [PyList ["a"; "b"]; PyList ["b"; "c"]].
Proof.
  assert (∃ d,
    to_trie [PyList ["a"; "b"]; PyList ["b"; "c"]] = Some d ∧
    [((0, ["a"; "b"]), Trie ∅); ((1, ["b"]), Trie {[ "c" := (true, Trie ∅) ]})]
      ∈ active_sets d ["a"; "b"; "c"]) as (d & Hd & Hin).
  { eexists. split; [reflexivity|]. vm_compute. right. left. }
  exact (active_matches_bounded _ d _ _ Hd Hin).
Defined.

(** ** Dictionaries of tuples *)

Lemma same_kind_all k l : (∀ c, c ∈ l → kind c = k) → same_kind l.
Proof. intros Hl a b Ha Hb. by rewrite (Hl a Ha), (Hl b Hb). Qed.

(** C9. When the concepts of the dictionary are tuples, the declared type,
    [extract] yields nothing on any token stream: the test [[] in entries] of
    [build_trie] compares a list with tuples, so no node of the trie is
    flagged as the end of a concept. *)
Theorem tuple_dictionary_yields_nothing dictionary S :
  (∀ c, c ∈ dictionary → kind c = KTuple) →
  run dictionary S = Some [] ∧
  ∀ d path n, to_trie dictionary = Some d → node_at d path = Some n →
              n.1 = false.
Proof.
  intros Htup.
  destruct (proj1 (sorted_is_Some dictionary) (same_kind_all _ _ Htup))
    as [entries Hsorted].
  assert (to_trie dictionary = Some (build_trie entries).2) as Hd.
  { unfold to_trie. by rewrite Hsorted. }
  split.
  - unfold run. rewrite Hd. cbn [mbind option_bind]. f_equal.
    destruct (extract _ S) as [|[start tokens] l] eqn:He; [done|].
    assert (PyList tokens ∈ dictionary) as Hin.
    { eapply extract_elem_entry; [exact Hd|]. rewrite He. left. }
    by apply Htup in Hin.
  - intros d path n Hd' Hn.
    apply to_trie_Some in Hd' as (entries' & _ & -> & Hin & Hs & Hk).
    rewrite (node_at_flag _ _ _ Hk Hs Hn). apply bool_decide_eq_false.
    intros Hp%Hin%Htup. done.
Qed.

Lemma tuple_dictionary_yields_nothing_witness :
  run [PyTuple ["cat"]; PyTuple ["cat"; "nap"]] ["cat"; "nap"] = Some [] ∧
  ∀ d path n,
    to_trie [PyTuple ["cat"]; PyTuple ["cat"; "nap"]] = Some d →
    node_at d path = Some n → n.1 = false.
Proof.
  apply (tuple_dictionary_yields_nothing
           [PyTuple ["cat"]; PyTuple ["cat"; "nap"]] ["cat"; "nap"]).
  intros c Hc. repeat (apply elem_of_cons in Hc as [->|Hc]; [reflexivity|]).
  by apply elem_of_nil in Hc.
Defined.

(** ** The trie depends on the set of concepts only *)

Lemma trie_eq t1 t2 : children t1 = children t2 → t1 = t2.
Proof. destruct t1, t2. simpl. by intros ->. Qed.

(** Two sorted collections with the same non-empty entries give the same
    children; the empty entries only show in the flag of the root. *)
Lemma build_trie_children_ext n entries1 entries2 :
  max_len entries1 ≤ n →
  same_kind entries1 → StronglySorted py_le entries1 →
  same_kind entries2 → StronglySorted py_le entries2 →
  (∀ c, truthy c = true → c ∈ entries1 ↔ c ∈ entries2) →
  (build_trie entries1).2 = (build_trie entries2).2.
Proof.
  revert entries1 entries2. induction n as [n IH] using lt_wf_ind.
  intros entries1 entries2 Hn Hk1 Hs1 Hk2 Hs2 Heq.
  apply trie_eq, map_eq. intros h. rewrite !build_trie_child by done.
  assert (∀ c, c ∈ strip h entries1 ↔ c ∈ strip h entries2) as Hstrip.
  { intros c. rewrite !elem_of_strip. by apply Heq. }
  destruct (strip h entries1) as [|c1 l1] eqn:H1,
           (strip h entries2) as [|c2 l2] eqn:H2.
  - done.
  - exfalso. eapply elem_of_nil, Hstrip. left.
  - exfalso. eapply elem_of_nil, Hstrip. left.
  - rewrite <-H1, <-H2 in *. f_equal. apply injective_projections.
    + rewrite !build_trie_flag. unfold py_in. by apply bool_decide_ext.
    + destruct (strip_max_len h entries1) as [Hnil|Hlt].
      { rewrite Hnil in H1. done. }
      apply (IH (max_len (strip h entries1)));
        auto using strip_same_kind, strip_sorted with lia.
Qed.

Lemma same_kind_ext l1 l2 : (∀ c, c ∈ l1 ↔ c ∈ l2) → same_kind l1 → same_kind l2.
Proof. intros Heq Hk a b Ha%Heq Hb%Heq. by apply Hk. Qed.

(** [to_trie] on two collections with the same non-empty concepts, when
    neither makes [sorted] raise. *)
Lemma to_trie_ext dictionary1 dictionary2 :
  same_kind dictionary1 → same_kind dictionary2 →
  (∀ c, truthy c = true → c ∈ dictionary1 ↔ c ∈ dictionary2) →
  to_trie dictionary1 = to_trie dictionary2.
Proof.
  intros Hk1 Hk2 Heq. unfold to_trie.
  destruct (proj1 (sorted_is_Some _) Hk1) as [e1 He1].
  destruct (proj1 (sorted_is_Some _) Hk2) as [e2 He2].
  rewrite He1, He2. cbn [mbind option_bind]. f_equal.
  destruct (sorted_Some _ _ He1) as (Hp1 & Hs1 & Hk1').
  destruct (sorted_Some _ _ He2) as (Hp2 & Hs2 & Hk2').
  apply (build_trie_children_ext (max_len e1)); try done.
  intros c Hc. rewrite Hp1, Hp2. by apply Heq.
Qed.

(** C7. Two collections that hold the same set of concepts, in any order
    and with any repetition, give the same trie, and so the same output of
    [extract] on every token stream (and [sorted] raises on both or on
    neither). *)
Theorem to_trie_order_and_duplicates dictionary1 dictionary2 :
  (∀ c, c ∈ dictionary1 ↔ c ∈ dictionary2) →
  to_trie dictionary1 = to_trie dictionary2 ∧
  ∀ S, run dictionary1 S = run dictionary2 S.
Proof.
  intros Heq.
  assert (to_trie dictionary1 = to_trie dictionary2) as Ht.
  { destruct (sorted dictionary1) as [e1|] eqn:He1.
    - assert (same_kind dictionary1) as Hk1 by (apply sorted_is_Some; eauto).
      apply to_trie_ext; [done|by eapply same_kind_ext|]. intros c _. apply Heq.
    - destruct (sorted dictionary2) as [e2|] eqn:He2.
      + assert (same_kind dictionary2) as Hk2 by (apply sorted_is_Some; eauto).
        apply to_trie_ext; [|done|].
        * eapply same_kind_ext; [|done]. intros c. by rewrite Heq.
        * intros c _. apply Heq.
      + unfold to_trie. by rewrite He1, He2. }
  split; [done|]. intros S. unfold run. by rewrite Ht.
Qed.

Lemma to_trie_order_and_duplicates_witness :
  to_trie [PyList ["b"; "c"]; PyList ["a"; "b"]; PyList ["a"]] =
  to_trie [PyList ["a"]; PyList ["b"; "c"]; PyList ["a"]; PyList ["a"; "b"];
           PyList ["b"; "c"]] ∧
  ∀ S, run [PyList ["b"; "c"]; PyList ["a"; "b"]; PyList ["a"]] S =
       run [PyList ["a"]; PyList ["b"; "c"]; PyList ["a"]; PyList ["a"; "b"];
            PyList ["b"; "c"]] S.
Proof.
  apply to_trie_order_and_duplicates.
  intros c. rewrite !elem_of_cons, !elem_of_nil. tauto.
Defined.

(** ** The empty concept *)

(** C10, as the code has it.  [to_trie] returns the children of the root
    only, so the trie does not tell whether the empty concept is in the
    dictionary: whenever [to_trie] returns a trie on a dictionary, it returns
    the same trie on the dictionary without its empty concepts, and
    [extract] gives the same output on every token stream. *)
Theorem to_trie_ignores_empty_concept dictionary d :
  to_trie dictionary = Some d →
  to_trie (filter (λ c, truthy c = true) dictionary) = Some d ∧
  ∀ S, run (filter (λ c, truthy c = true) dictionary) S = run dictionary S.
Proof.
  intros Hd.
  assert (same_kind dictionary) as Hk.
  { apply sorted_is_Some. unfold to_trie in Hd.
    destruct (sorted dictionary); [done|discriminate]. }
  assert (to_trie (filter (λ c, truthy c = true) dictionary) =
          to_trie dictionary) as Ht.
  { apply to_trie_ext; [|done|].
    - intros a b [_ Ha]%list_elem_of_filter [_ Hb]%list_elem_of_filter.
      by apply Hk.
    - intros c Hc. rewrite list_elem_of_filter. tauto. }
  split; [by rewrite Ht|]. intros S. unfold run. by rewrite Ht.
Qed.

Lemma to_trie_ignores_empty_concept_witness :
  to_trie (filter (λ c, truthy c = true) [PyList ["a"]; PyList []]) =
    Some (Trie {[ "a" := (true, Trie ∅) ]}) ∧
  ∀ S, run (filter (λ c, truthy c = true) [PyList ["a"]; PyList []]) S =
       run [PyList ["a"]; PyList []] S.
Proof.
  apply (to_trie_ignores_empty_concept [PyList ["a"]; PyList []]).
  reflexivity.
Defined.

(** C10 does not hold for every collection: an empty concept of the other
    kind makes [sorted] raise [TypeError], and [to_trie] returns a trie once
    it is removed. *)
Lemma to_trie_ignores_empty_concept_counterexample :
  to_trie [PyTuple ["a"]; PyList []] = None ∧
  to_trie (filter (λ c, truthy c = true) [PyTuple ["a"]; PyList []])
  = Some (Trie {[ "a" := (false, Trie ∅) ]}).
Proof. split; reflexivity. Qed.

(** ** The contract of the trie builder *)

(** C4, as the code has it.  In the trie [to_trie] returns, the tokens of
    every non-empty concept given as a list lead from the root to a node whose
    flag is true; and every node whose flag is true is reached by the tokens
    of exactly one concept of the dictionary, a non-empty one.  The trie
    returned is the [dict] of the root's children: the root has no flag in
    it, so the empty concept has no node. *)
Theorem to_trie_contract dictionary d :
  to_trie dictionary = Some d →
  (∀ c, c ∈ dictionary → kind c = KList → items c ≠ [] →
        ∃ n, node_at d (items c) = Some n ∧ n.1 = true) ∧
  (∀ path n, node_at d path = Some n → n.1 = true →
        path ≠ [] ∧ PyList path ∈ dictionary ∧
        ∀ c, c ∈ dictionary → items c = path → c = PyList path).
Proof.
  intros (entries & _ & -> & Hin & Hs & Hk)%to_trie_Some. split.
  - intros [k path] Hc%Hin Hkind Hne. simpl in Hkind, Hne. subst k.
    cbn [items].
    destruct (proj2 (node_at_is_Some entries path Hk Hs)) as [n Hn].
    { split; [done|]. exists KList, []. by rewrite app_nil_r. }
    exists n. split; [done|].
    rewrite (node_at_flag _ _ _ Hk Hs Hn). by apply bool_decide_eq_true.
  - intros path n Hn Hfl.
    rewrite (node_at_flag _ _ _ Hk Hs Hn) in Hfl.
    apply bool_decide_eq_true in Hfl. split_and!.
    + by destruct path.
    + by apply Hin.
    + intros [k p] Hc%Hin Hp. simpl in Hp. subst p.
      pose proof (Hk _ _ Hc Hfl) as Hkk. simpl in Hkk. by subst k.
Qed.

Lemma to_trie_contract_witness :
  (∀ c, c ∈ [PyList ["cat"; "nap"]; PyList ["cat"]] → kind c = KList →
        items c ≠ [] →
        ∃ n, node_at (Trie {[ "cat" :=
               (true, Trie {[ "nap" := (true, Trie ∅) ]}) ]}) (items c)
             = Some n ∧ n.1 = true) ∧
  (∀ path n,
     node_at (Trie {[ "cat" := (true, Trie {[ "nap" := (true, Trie ∅) ]}) ]})
       path = Some n → n.1 = true →
     path ≠ [] ∧ PyList path ∈ [PyList ["cat"; "nap"]; PyList ["cat"]] ∧
     ∀ c, c ∈ [PyList ["cat"; "nap"]; PyList ["cat"]] → items c = path →
          c = PyList path).
Proof.
  apply (to_trie_contract [PyList ["cat"; "nap"]; PyList ["cat"]]).
  reflexivity.
Defined.

(** C4 does not hold as stated: the tokens of the empty concept lead to no
    node of the trie returned, and the tokens of a concept given as a tuple
    lead to a node whose flag is false. *)
Lemma to_trie_contract_counterexample :
  (to_trie [PyList []] = Some (Trie ∅) ∧
   node_at (Trie ∅) (items (PyList [])) = None) ∧
  (to_trie [PyTuple ["cat"]] = Some (Trie {[ "cat" := (false, Trie ∅) ]}) ∧
   node_at (Trie {[ "cat" := (false, Trie ∅) ]}) (items (PyTuple ["cat"]))
     = Some (false, Trie ∅)).
Proof. repeat split; reflexivity. Qed.

(** ** Completeness *)

Lemma StronglySorted_NoDup {A} (R : relation A) `{!Irreflexive R} (l : list A) :
  StronglySorted R l → NoDup l.
Proof.
  induction 1 as [|x l Hs IH Hx]; constructor; [|done].
  intros Hin. eapply Forall_forall in Hx; [|exact Hin].
  by apply (irreflexivity R x).
Qed.

#[global] Instance emitted_before_irrefl : Irreflexive emitted_before.
Proof. intros e [?|[_ ?]]; lia. Qed.

(** X1. With a dictionary of lists [extract] is complete: every occurrence
    of a non-empty concept is yielded, and no pair is yielded twice. *)
Lemma extract_complete_lists dictionary d S i C :
  to_trie dictionary = Some d →
  PyList C ∈ dictionary → C ≠ [] →
  take (length C) (drop i S) = C →
  (i, C) ∈ extract d S ∧ NoDup (extract d S).
Proof.
  intros Hd HC Hne Hocc. split.
  2: { eapply StronglySorted_NoDup; [apply _|].
       rewrite extract_iterations_at. apply iterations_at_ordered. }
  apply to_trie_Some in Hd as (entries & _ & -> & Hin & Hs & Hk).
  apply Hin in HC.
  destruct (proj2 (node_at_is_Some entries C Hk Hs)) as [n Hn].
  { split; [done|]. exists KList, []. by rewrite app_nil_r. }
  assert (n.1 = true) as Hfl.
  { rewrite (node_at_flag _ _ _ Hk Hs Hn). by apply bool_decide_eq_true. }
  destruct (exists_last Hne) as (C' & token & ->).
  assert (i + length (C' ++ [token]) ≤ length S) as Hlen.
  { apply (f_equal length) in Hocc.
    rewrite length_take, length_drop in Hocc. rewrite length_app in *.
    simpl in *. lia. }
  apply elem_of_extract.
  exists (take i S ++ C'), token, (drop (i + length (C' ++ [token])) S), n.
  rewrite length_app in Hlen. simpl in Hlen.
  assert (length (take i S) = i) as Hi by (rewrite length_take; lia).
  split_and!; try done.
  - rewrite <-(take_drop i S) at 1. rewrite <-app_assoc. f_equal.
    rewrite <-(take_drop (length (C' ++ [token])) (drop i S)) at 1.
    rewrite Hocc, drop_drop, <-app_assoc. done.
  - rewrite length_app. lia.
  - rewrite <-app_assoc, drop_app_length'; done.
Qed.

(** ** Dictionaries of tuples: what the specification expects and the code
    does not do *)

(** C1 fails on the code.  [("cat",)] is a concept of the dictionary and
    occurs at index 0 of the stream, and [extract] yields nothing: the pair
    [(0, ["cat"])] appears zero times, not once. *)
Theorem extract_misses_tuple_concept :
  PyTuple ["cat"] ∈ [PyTuple ["cat"]] ∧
  take (length ["cat"]) (drop 0 ["cat"]) = ["cat"] ∧
  run [PyTuple ["cat"]] ["cat"] = Some [] ∧
  run [PyList ["cat"]] ["cat"] = Some [(0, ["cat"])].
Proof. split_and!; [left|reflexivity..]. Qed.

(** C5 fails on the code.  With the dictionary
    [{("cat",), ("cat","nap")}] and the stream [["cat","nap"]], [extract]
    yields nothing; it yields the two nested matches, in the order the
    specification gives, only when the concepts are lists. *)
Theorem extract_nested_example :
  run [PyTuple ["cat"]; PyTuple ["cat"; "nap"]] ["cat"; "nap"] = Some [] ∧
  run [PyList ["cat"]; PyList ["cat"; "nap"]] ["cat"; "nap"]
    = Some [(0, ["cat"]); (0, ["cat"; "nap"])].
Proof. split; reflexivity. Qed.

(** * Further properties of the code *)

(** ** What [extract] yields, for any trie *)

Lemma occurrence_split (S : list string) start tokens :
  tokens ≠ [] →
  take (length tokens) (drop start S) = tokens →
  ∃ pre token post,
    S = pre ++ token :: post ∧ start ≤ length pre ∧
    tokens = drop start (pre ++ [token]).
Proof.
  intros Hne Hocc. destruct (exists_last Hne) as (C' & token & ->).
  assert (start + length (C' ++ [token]) ≤ length S) as Hlen.
  { apply (f_equal length) in Hocc.
    rewrite length_take, length_drop in Hocc. rewrite length_app in *.
    simpl in *. lia. }
  exists (take start S ++ C'), token, (drop (start + length (C' ++ [token])) S).
  rewrite length_app in Hlen. simpl in Hlen.
  assert (length (take start S) = start) as Hi by (rewrite length_take; lia).
  split_and!.
  - rewrite <-(take_drop start S) at 1. rewrite <-app_assoc. f_equal.
    rewrite <-(take_drop (length (C' ++ [token])) (drop start S)) at 1.
    rewrite Hocc, drop_drop, <-app_assoc. done.
  - rewrite length_app. lia.
  - rewrite <-app_assoc, drop_app_length'; done.
Qed.

Lemma elem_of_extract_slice d S start tokens :
  (start, tokens) ∈ extract d S ↔
  tokens ≠ [] ∧ take (length tokens) (drop start S) = tokens ∧
  ∃ n, node_at d tokens = Some n ∧ n.1 = true.
Proof.
  split.
  - intros Hin. split_and!.
    + apply (proj1 (elem_of_extract _ _ _ _)) in Hin
        as (? & ? & ? & n & _ & _ & _ & Hn & _).
      intros ->. done.
    + by apply (extract_elem_slice d).
    + apply (proj1 (elem_of_extract _ _ _ _)) in Hin
        as (? & ? & ? & n & _ & _ & _ & Hn & Hfl).
      by exists n.
  - intros (Hne & Hocc & n & Hn & Hfl). apply elem_of_extract.
    destruct (occurrence_split S start tokens Hne Hocc)
      as (pre & token & post & -> & Hle & ->).
    by exists pre, token, post, n.
Qed.

(** X3. For any trie, [extract] yields exactly the pairs [(start, tokens)]
    where [tokens] is not empty, is the slice of the stream that starts at
    [start], and leads from the root of the trie to a node whose flag is
    true. *)
Theorem extract_characterization d S start tokens :
  (start, tokens) ∈ extract d S ↔
  tokens ≠ [] ∧ take (length tokens) (drop start S) = tokens ∧
  ∃ n, node_at d tokens = Some n ∧ n.1 = true.
Proof. apply elem_of_extract_slice. Qed.

(** X2. [extract] never yields the same pair twice, whatever the trie. *)
Theorem extract_no_duplicates d S : NoDup (extract d S).
Proof.
  eapply StronglySorted_NoDup; [apply _|].
  rewrite extract_iterations_at. apply iterations_at_ordered.
Qed.

(** X10. The starts are positions in the stream given to [extract]: with
    tokens put in front of the stream, the matches of the stream are yielded
    with their starts moved by the number of tokens added, and those are all
    the matches that start at or after that position. *)
Theorem extract_shift d S1 S2 start tokens :
  (length S1 + start, tokens) ∈ extract d (S1 ++ S2) ↔
  (start, tokens) ∈ extract d S2.
Proof.
  rewrite !elem_of_extract_slice.
  by rewrite <-drop_drop, drop_app_length.
Qed.

(** ** The stream is consumed in order *)

Lemma iterations_at_app d seen tokens1 tokens2 :
  iterations_at d seen (tokens1 ++ tokens2) =
  iterations_at d seen tokens1 ++ iterations_at d (seen ++ tokens1) tokens2.
Proof.
  revert seen. induction tokens1 as [|t tokens1 IH]; intros seen; simpl.
  - by rewrite app_nil_r.
  - rewrite IH, <-app_assoc. done.
Qed.

(** X4. [extract] never looks ahead: what it yields on a stream, and the
    lists [matches] it goes through, are the beginning of what it yields and
    goes through on any longer stream that starts with it. *)
Theorem extract_prefix d S1 S2 :
  extract d S1 `prefix_of` extract d (S1 ++ S2) ∧
  active_sets d S1 `prefix_of` active_sets d (S1 ++ S2).
Proof.
  rewrite !extract_iterations_at, !active_sets_iterations_at.
  rewrite iterations_at_app, !fmap_app, join_app.
  split; apply prefix_app_r; done.
Qed.

Lemma iterations_at_lookup d seen tokens k :
  iterations_at d seen tokens !! k =
  (λ t, (yields_at d (seen ++ take k tokens) t,
         matches_at d (seen ++ take (S k) tokens))) <$> tokens !! k.
Proof.
  revert seen k. induction tokens as [|t tokens IH]; intros seen [|k]; simpl;
    try done.
  - by rewrite app_nil_r.
  - rewrite IH. by rewrite <-!app_assoc.
Qed.

Lemma active_sets_lookup d stream k :
  active_sets d stream !! k = (λ _, matches_at d (take (S k) stream)) <$> stream !! k.
Proof.
  rewrite active_sets_iterations_at, list_lookup_fmap, iterations_at_lookup.
  by destruct (stream !! k).
Qed.

(** X5. The invariant of the loop of [extract]: after the token at index
    [k], [matches] holds exactly the triples [((start, m), pointer)] where
    [start <= k], [m] is the slice of the stream from [start] to [k]
    included, [m] leads to a node of the trie and [pointer] is the children
    of that node. *)
Theorem active_matches_content d stream k matches :
  active_sets d stream !! k = Some matches →
  ∀ start m pointer,
    ((start, m), pointer) ∈ matches ↔
    start ≤ k ∧ m = take (S k - start) (drop start stream) ∧
    ∃ n, node_at d m = Some n ∧ pointer = n.2.
Proof.
  rewrite active_sets_lookup. destruct (stream !! k) as [t|] eqn:Hk; [|done].
  intros [= <-] start m pointer.
  assert (length (take (S k) stream) = S k) as Hlen.
  { apply lookup_lt_Some in Hk. rewrite length_take. lia. }
  assert (∀ s, s ≤ k →
    drop s (take (S k) stream) = take (S k - s) (drop s stream)) as Hdrop.
  { intros s Hs. rewrite take_drop_commute. do 2 f_equal. lia. }
  unfold matches_at. rewrite list_elem_of_omap, Hlen. split.
  - intros (s & [_ Hs]%elem_of_seq & Ha).
    destruct (node_at d _) as [n|] eqn:Hn; [|done]. simpl in Ha.
    injection Ha as <- <- <-. rewrite <-Hdrop by lia.
    split_and!; [lia|done|by exists n].
  - intros (Hs & -> & n & Hn & ->). exists start. split.
    + apply elem_of_seq. lia.
    + rewrite Hdrop, Hn by done. done.
Qed.

Lemma active_matches_content_witness :
  ((1, ["b"]), Trie ∅) ∈
    [((0, ["a"; "b"]), Trie {[ "c" := (true, Trie ∅) ]});
     ((1, ["b"]), Trie ∅)] ↔
  1 ≤ 1 ∧ ["b"] = take (2 - 1) (drop 1 ["a"; "b"; "x"]) ∧
  ∃ n, node_at (Trie {[ "a" := (false,
                          Trie {[ "b" := (false,
                            Trie {[ "c" := (true, Trie ∅) ]}) ]});
                        "b" := (true, Trie ∅) ]}) ["b"] = Some n ∧
       Trie ∅ = n.2.
Proof.
  apply (active_matches_content _ ["a"; "b"; "x"] 1). vm_compute. reflexivity.
Defined.

(** X12. A match that is yielded stays in [matches]: in every iteration of
    the loop, each pair yielded is also appended to [updates], with the
    children of the flagged node it has reached as its pointer. *)
Theorem yielded_match_stays_active d stream r start tokens :
  r ∈ iterations d 0 [] stream →
  (start, tokens) ∈ r.1 →
  ∃ pointer, ((start, tokens), pointer) ∈ r.2 ∧
             node_at d tokens = Some (true, pointer).
Proof.
  rewrite (iterations_iterations_at d []).
  intros (pre & token & post & -> & ->)%elem_of_iterations_at. cbn [fst snd app].
  unfold yields_at, matches_at.
  intros (s & [_ Hs]%elem_of_seq & Hy)%list_elem_of_omap.
  destruct (node_at d _) as [[fl pointer]|] eqn:Hn; [|done]. simpl in Hy.
  destruct fl; [|done]. injection Hy as <- <-.
  exists pointer. split; [|done].
  apply list_elem_of_omap. exists s. split.
  - apply elem_of_seq. rewrite length_app. simpl in *. lia.
  - by rewrite Hn.
Qed.

Lemma yielded_match_stays_active_witness :
  ∃ pointer,
    ((1, ["b"]), pointer) ∈
      [((0, ["a"; "b"]), Trie {[ "c" := (true, Trie ∅) ]});
       ((1, ["b"]), Trie ∅)] ∧
    node_at (Trie {[ "a" := (false,
                       Trie {[ "b" := (false,
                         Trie {[ "c" := (true, Trie ∅) ]}) ]});
                     "b" := (true, Trie ∅) ]}) ["b"] = Some (true, pointer).
Proof.
  apply (yielded_match_stays_active _ ["a"; "b"]
           ([(1, ["b"])],
            [((0, ["a"; "b"]), Trie {[ "c" := (true, Trie ∅) ]});
             ((1, ["b"]), Trie ∅)]) 1 ["b"]).
  - vm_compute. right. left.
  - left.
Defined.

(** ** The trie of a dictionary, continued *)

(** X9. On a dictionary that holds a tuple and a list, [to_trie] returns
    no trie: [sorted] raises [TypeError] when it compares the two, before
    [build_trie] is called. *)
Theorem to_trie_raises_on_mixed_kinds dictionary a b :
  a ∈ dictionary → b ∈ dictionary → kind a ≠ kind b →
  to_trie dictionary = None.
Proof.
  intros Ha Hb Hab. unfold to_trie.
  destruct (sorted dictionary) as [entries|] eqn:Hs; [|done].
  exfalso. apply Hab.
  assert (same_kind dictionary) as Hk by (apply sorted_is_Some; eauto).
  by apply Hk.
Qed.

Lemma to_trie_raises_on_mixed_kinds_witness :
  to_trie [PyTuple ["a"; "b"]; PyTuple ["c"]; PyList ["a"]] = None.
Proof.
  apply (to_trie_raises_on_mixed_kinds _ (PyTuple ["c"]) (PyList ["a"])).
  - right. left.
  - right. right. left.
  - discriminate.
Defined.

(** X8. The trie is the prefix tree of the dictionary, tuples and lists
    alike: a path leads from its root to a node exactly when the path is not
    empty and some concept starts with it. *)
Theorem to_trie_paths dictionary d path :
  to_trie dictionary = Some d →
  is_Some (node_at d path) ↔
  path ≠ [] ∧ ∃ c, c ∈ dictionary ∧ path `prefix_of` items c.
Proof.
  intros (entries & _ & -> & Hin & Hs & Hk)%to_trie_Some.
  rewrite node_at_is_Some by done. split.
  - intros [Hne (k & rest & Hc)]. split; [done|].
    exists (PySeq k (path ++ rest)). split; [by apply Hin|]. by exists rest.
  - intros [Hne ([k l] & Hc & rest & Hl)]. split; [done|]. simpl in Hl. subst l.
    exists k, rest. by apply Hin.
Qed.

Lemma to_trie_paths_witness :
  is_Some (node_at (Trie {[ "cat" := (false,
                     Trie {[ "nap" := (false, Trie ∅) ]}) ]}) ["cat"]) ↔
  ["cat"] ≠ [] ∧
  ∃ c, c ∈ [PyTuple ["cat"; "nap"]] ∧ ["cat"] `prefix_of` items c.
Proof.
  apply (to_trie_paths [PyTuple ["cat"; "nap"]]). reflexivity.
Defined.



(** ** Tokens that are in no concept *)

(** X6. A token that occurs in no concept of the dictionary prunes every
    active match: after it is consumed [matches] is empty, and nothing is
    yielded while it is consumed. *)
Theorem unknown_token_clears_matches dictionary d stream k token r :
  to_trie dictionary = Some d →
  stream !! k = Some token →
  (∀ c, c ∈ dictionary → token ∉ items c) →
  iterations d 0 [] stream !! k = Some r →
  r = ([], []).
Proof.
  intros (entries & _ & -> & Hin & Hs & Hk)%to_trie_Some Htok Hunknown.
  rewrite (iterations_iterations_at _ []), iterations_at_lookup, Htok.
  intros [= <-]. cbn [app].
  assert (∀ s, s ≤ k →
    node_at (build_trie entries).2 (drop s (take k stream ++ [token])) = None)
    as Hnone.
  { intros s Hle.
    destruct (node_at _ _) as [n|] eqn:Hn; [|done]. exfalso.
    destruct (proj1 (node_at_is_Some entries
                (drop s (take k stream ++ [token])) Hk Hs))
      as [_ (kd & rest & Hc)].
    { by rewrite Hn. }
    apply Hin, Hunknown in Hc. apply Hc. simpl.
    apply lookup_lt_Some in Htok.
    rewrite drop_app_le by (rewrite length_take; lia).
    set_solver. }
  assert (length (take k stream) = k) as Hlen.
  { apply lookup_lt_Some in Htok. rewrite length_take. lia. }
  rewrite (take_S_r _ _ _ Htok). unfold yields_at, matches_at. f_equal.
  - apply omap_none. intros s [_ Hlt]%elem_of_seq.
    rewrite Hnone by lia. done.
  - apply omap_none. intros s [_ Hlt]%elem_of_seq.
    rewrite length_app in Hlt. simpl in Hlt. rewrite Hnone by lia. done.
Qed.

Lemma unknown_token_clears_matches_witness :
  ∃ d r, to_trie [PyList ["a"; "b"]] = Some d ∧
         iterations d 0 [] ["a"; "x"] !! 1 = Some r ∧ r = ([], []).
Proof.
  eexists _, _. split; [reflexivity|]. split; [vm_compute; reflexivity|].
  apply (unknown_token_clears_matches [PyList ["a"; "b"]]
           (Trie {[ "a" := (false, Trie {[ "b" := (true, Trie ∅) ]}) ]})
           ["a"; "x"] 1 "x").
  - reflexivity.
  - reflexivity.
  - intros c ->%list_elem_of_singleton. simpl.
    rewrite !elem_of_cons, elem_of_nil. intros [|[|]]; done.
  - vm_compute. reflexivity.
Defined.

(** ** The size of the output *)

Lemma yields_at_length entries seen token :
  same_kind entries → StronglySorted py_le entries →
  length (yields_at (build_trie entries).2 seen token) ≤ max_len entries.
Proof.
  intros Hk Hs. unfold yields_at. apply length_omap_seq. intros s Hlt Hsome.
  destruct (node_at _ _) as [n|] eqn:Hn; [|by destruct Hsome].
  destruct (node_at_depth entries _ Hk Hs (mk_is_Some _ _ Hn)) as [_ Hle].
  rewrite length_drop, length_app in Hle. simpl in Hle. lia.
Qed.

Lemma iterations_at_length d L seen tokens :
  (∀ seen token, length (yields_at d seen token) ≤ L) →
  length (mjoin (iterations_at d seen tokens).*1) ≤ L * length tokens.
Proof.
  intros HL. revert seen.
  induction tokens as [|token tokens IH]; intros seen.
  { simpl. lia. }
  cbn [iterations_at length]. rewrite fmap_cons. cbn [fst mjoin list_join].
  rewrite length_app, Nat.mul_succ_r, (Nat.add_comm (L * _)).
  apply Nat.add_le_mono; [apply HL|apply IH].
Qed.

(** X7. No token completes more matches than the longest concept has
    tokens, so on a stream of [N] tokens [extract] yields at most [L * N]
    pairs, where [L] is the length of the longest concept of the
    dictionary. *)
Theorem extract_length_bound dictionary d stream :
  to_trie dictionary = Some d →
  length (extract d stream) ≤ max_len dictionary * length stream.
Proof.
  intros (entries & _ & -> & Hin & Hs & Hk)%to_trie_Some.
  rewrite (max_len_ext dictionary entries) by (intros c; by rewrite Hin).
  rewrite extract_iterations_at. apply iterations_at_length.
  intros seen token. by apply yields_at_length.
Qed.

Lemma extract_length_bound_witness :
  length [(0, ["a"]); (0, ["a"; "a"]); (1, ["a"])] ≤
  max_len [PyList ["a"]; PyList ["a"; "a"]] * length ["a"; "a"].
Proof.
  assert (∃ d, to_trie [PyList ["a"]; PyList ["a"; "a"]] = Some d ∧
               extract d ["a"; "a"] = [(0, ["a"]); (0, ["a"; "a"]); (1, ["a"])])
    as (d & Hd & <-).
  { eexists. split; reflexivity. }
  exact (extract_length_bound _ d _ Hd).
Defined.

(** ** Completeness, on a concrete stream *)

Lemma extract_complete_lists_witness :
  ∃ d, to_trie [PyList ["a"; "b"]; PyList ["b"]] = Some d ∧
       ((1, ["b"]) ∈ extract d ["x"; "b"] ∧ NoDup (extract d ["x"; "b"])).
Proof.
  eexists. split; [reflexivity|].
  apply (extract_complete_lists [PyList ["a"; "b"]; PyList ["b"]]).
  - reflexivity.
  - right. left.
  - done.
  - reflexivity.
Defined.

(** ** What [extract] yields, for the trie of a dictionary *)

(** X13. With the trie of a dictionary, [extract] yields exactly the
    occurrences of its non-empty concepts that are lists: [(start, tokens)]
    is yielded exactly when [tokens] is not empty, the list [tokens] is an
    element of the dictionary and the stream holds [tokens] from index
    [start] on.  Concepts that are tuples are never yielded. *)
Theorem extract_exactly_list_concepts dictionary d stream start tokens :
  to_trie dictionary = Some d →
  (start, tokens) ∈ extract d stream ↔
  tokens ≠ [] ∧ PyList tokens ∈ dictionary ∧
  take (length tokens) (drop start stream) = tokens.
Proof.
  intros Hd. rewrite elem_of_extract_slice.
  apply to_trie_Some in Hd as (entries & _ & -> & Hin & Hs & Hk). split.
  - intros (Hne & Hocc & n & Hn & Hfl). split_and!; [done| |done].
    apply Hin. rewrite (node_at_flag _ _ _ Hk Hs Hn) in Hfl.
    by apply bool_decide_eq_true in Hfl.
  - intros (Hne & Hc%Hin & Hocc). split_and!; [done..|].
    destruct (proj2 (node_at_is_Some entries tokens Hk Hs)) as [n Hn].
    { split; [done|]. exists KList, []. by rewrite app_nil_r. }
    exists n. split; [done|].
    rewrite (node_at_flag _ _ _ Hk Hs Hn). by apply bool_decide_eq_true.
Qed.

Lemma extract_exactly_list_concepts_witness :
  ∃ d, to_trie [PyList ["b"; "c"]; PyList ["a"]] = Some d ∧
       ((1, ["b"; "c"]) ∈ extract d ["a"; "b"; "c"] ↔
        ["b"; "c"] ≠ [] ∧ PyList ["b"; "c"] ∈ [PyList ["b"; "c"]; PyList ["a"]] ∧
        take (length ["b"; "c"]) (drop 1 ["a"; "b"; "c"]) = ["b"; "c"]).
Proof.
  eexists. split; [reflexivity|].
  apply (extract_exactly_list_concepts [PyList ["b"; "c"]; PyList ["a"]]).
  reflexivity.
Defined.
